(** * Delta-time movement example (dt_example.py): model and verification

    The program is one pygame script: a [Player] whose exact position
    [true_pos] is advanced by [speed * dt] for every held arrow key and whose
    integer [rect] is clamped to the screen, and an [App] whose [main_loop]
    polls events, updates, renders and ticks the clock until [done].

    Numbers.  [true_pos] holds Python ints (after [__init__] and after a
    clamp) and Python floats (after an update with a float [dt]).  The file
    has two models of this arithmetic.

    - The modules [Player] and [App] compute with exact rationals [Qc].
      They carry the properties that do not depend on how a sum is rounded:
      placing and clamping the rectangle, what an update with [dt = 0] or
      with no key held does, the frame of the methods, the main loop.
    - The module [Float64] is the [for] loop of [Player.update] once more,
      in IEEE 754 binary64 (Rocq's primitive floats), every [*] and [+=]
      rounded on its own as Python does.  The properties of the sum itself
      are stated and proved there.

    Rect fields are C ints in pygame; they are modelled as unbounded [Z]
    (no overflow).

    pygame itself is not part of the repository: the few [Rect], [Surface],
    event and clock operations the script calls are modelled from pygame's
    documented behaviour, in the modules [Rect] and [Surface] and in the
    [Frame] record below. *)

From Stdlib Require Import ZArith QArith Qcanon Qround List Bool Lia.
From Stdlib Require Floats Uint63.
From Stdlib Require Import Reals Qreals Lra.
Import ListNotations.

Local Open Scope Z_scope.

(** ** Numbers *)

(** A Python int used where a float may be used too. *)
Definition of_int (z : Z) : Qc := Q2Qc (inject_Z z).

(** Conversion of a number to a C int when it is stored in a Rect.  pygame
    up to 2.2 truncates toward zero (the [(int)] cast of a double), which is
    what is written here; from 2.3.0 on it rounds to the nearest integer.
    The theorems use two facts about the conversion only, which hold for
    both: an integer converts to itself ([to_int_of_int]), and the result
    is less than one away from the number ([to_int_within_one]). *)
Definition to_int (q : Qc) : Z :=
  if Qle_bool 0 q then Qfloor q else Qceiling q.

Definition of_int2 (c : Z * Z) : Qc * Qc := (of_int (fst c), of_int (snd c)).
Definition to_int2 (c : Qc * Qc) : Z * Z := (to_int (fst c), to_int (snd c)).

(** ** pygame.Rect *)

Module Rect.

Record t := mk { x : Z; y : Z; w : Z; h : Z }.

(** [r.center]: the getter uses C integer division. *)
Definition center (r : t) : Z * Z :=
  (x r + Z.quot (w r) 2, y r + Z.quot (h r) 2).

(** [r.center = c]: moves the rectangle, the size is kept. *)
Definition set_center (r : t) (c : Z * Z) : t :=
  {| x := fst c - Z.quot (w r) 2; y := snd c - Z.quot (h r) 2;
     w := w r; h := h r |}.

(** [self.contains(arg)]: [arg] lies completely inside [self]. *)
Definition contains (self arg : t) : bool :=
  (x self <=? x arg) && (y self <=? y arg) &&
  (x arg + w arg <=? x self + w self) &&
  (y arg + h arg <=? y self + h self) &&
  (x arg <? x self + w self) && (y arg <? y self + h self).

(** One axis of [clamp_ip]: a rectangle too large to fit is centred. *)
Definition clamp_axis (pos len apos alen : Z) : Z :=
  if alen <=? len then apos + Z.quot alen 2 - Z.quot len 2
  else if pos <? apos then apos
  else if apos + alen <? pos + len then apos + alen - len
  else pos.

(** [self.clamp_ip(arg)]: moves [self] inside [arg]. *)
Definition clamp_ip (self arg : t) : t :=
  {| x := clamp_axis (x self) (w self) (x arg) (w arg);
     y := clamp_axis (y self) (h self) (y arg) (h arg);
     w := w self; h := h self |}.

(** [r.inflate(dx, dy)]: grows around the centre. *)
Definition inflate (r : t) (dx dy : Z) : t :=
  {| x := x r - Z.quot dx 2; y := y r - Z.quot dy 2;
     w := w r + dx; h := h r + dy |}.

End Rect.

(** ** Colours, surfaces and drawing *)

Inductive Color := darkslategrey | black | tomato | RGBA (r g b a : Z).

Definition TRANSPARENT : Color := RGBA 0 0 0 0.
Definition BACKGROUND_COLOR : Color := darkslategrey.
Definition SCREEN_SIZE : Z * Z := (500, 500).

Module Surface.

(** An off-screen image: its size and what was painted on it. *)
Inductive Paint := Fill (c : Color) | Ellipse (c : Color) (r : Rect.t).
Record image := mk_image { image_size : Z * Z; painted : list Paint }.

(** The display surface: its size and what was drawn since the last fill. *)
Inductive Drawn := Filled (c : Color) | Blitted (src : image) (dest : Rect.t).
Record t := mk { size : Z * Z; drawn : list Drawn }.

Definition new_image (sz : Z * Z) : image :=
  {| image_size := sz; painted := [] |}.

Definition image_fill (i : image) (c : Color) : image :=
  {| image_size := image_size i; painted := [Fill c] |}.

Definition draw_ellipse (i : image) (c : Color) (r : Rect.t) : image :=
  {| image_size := image_size i; painted := painted i ++ [Ellipse c r] |}.

(** [image.get_rect()] *)
Definition image_rect (i : image) : Rect.t :=
  Rect.mk 0 0 (fst (image_size i)) (snd (image_size i)).

(** [surface.get_rect()] *)
Definition get_rect (s : t) : Rect.t :=
  Rect.mk 0 0 (fst (size s)) (snd (size s)).

Definition fill (s : t) (c : Color) : t :=
  {| size := size s; drawn := [Filled c] |}.

Definition blit (s : t) (src : image) (dest : Rect.t) : t :=
  {| size := size s; drawn := drawn s ++ [Blitted src dest] |}.

(** [pg.display.set_mode(size)] *)
Definition set_mode (sz : Z * Z) : t := {| size := sz; drawn := [] |}.

End Surface.

(** ** Keys *)

Inductive Key := K_LEFT | K_RIGHT | K_UP | K_DOWN | K_OTHER (code : nat).

Definition Key_eqb (a b : Key) : bool :=
  match a, b with
  | K_LEFT, K_LEFT | K_RIGHT, K_RIGHT | K_UP, K_UP | K_DOWN, K_DOWN => true
  | K_OTHER m, K_OTHER n => Nat.eqb m n
  | _, _ => false
  end.

(** The value of [pg.key.get_pressed()]: which keys are held. *)
Definition Keys := Key -> bool.

(** The dict literal, in insertion order (the order of iteration). *)
Definition DIRECT_DICT : list (Key * (Z * Z)) :=
  [ (K_LEFT,  (-1, 0));
    (K_RIGHT, ( 1, 0));
    (K_UP,    ( 0,-1));
    (K_DOWN,  ( 0, 1)) ].

Definition dict_keys {V : Type} (d : list (Key * V)) : list Key := map fst d.

Fixpoint dict_get {V : Type} (d : list (Key * V)) (k : Key) : option V :=
  match d with
  | [] => None
  | (k', v) :: d' => if Key_eqb k k' then Some v else dict_get d' k
  end.

(** ** class Player *)

Module Player.

Definition SIZE : Z * Z := (100, 100).

Record t := mk {
  image : Surface.image;
  rect : Rect.t;
  true_pos : Qc * Qc;
  speed : Qc
}.

Definition make_image : Surface.image :=
  let image := Surface.image_fill (Surface.new_image SIZE) TRANSPARENT in
  let rect := Surface.image_rect image in
  let image := Surface.draw_ellipse image black rect in
  Surface.draw_ellipse image tomato (Rect.inflate rect (-12) (-12)).

(** [__init__] *)
Definition init (pos : Z * Z) (speed : Qc) : t :=
  let image := make_image in
  let rect := Rect.set_center (Surface.image_rect image) pos in
  {| image := image; rect := rect;
     true_pos := of_int2 (Rect.center rect); speed := speed |}.

(** Body of the [for] loop of [update] for one key of the dict.  The key
    comes from the dict itself, so the lookup cannot miss. *)
Definition move (keys : Keys) (speed dt : Qc) (pos : Qc * Qc) (key : Key)
  : Qc * Qc :=
  if keys key then
    match dict_get DIRECT_DICT key with
    | Some d => ((fst pos + of_int (fst d) * speed * dt)%Qc,
                 (snd pos + of_int (snd d) * speed * dt)%Qc)
    | None => pos
    end
  else pos.

(** The [for] loop of [update]: the integration step. *)
Definition integrate (p : t) (keys : Keys) (dt : Qc) : t :=
  {| image := image p; rect := rect p;
     true_pos := fold_left (move keys (speed p) dt)
                           (dict_keys DIRECT_DICT) (true_pos p);
     speed := speed p |}.

(** [self.rect.center = self.true_pos] *)
Definition place (p : t) : t :=
  {| image := image p;
     rect := Rect.set_center (rect p) (to_int2 (true_pos p));
     true_pos := true_pos p; speed := speed p |}.

Definition clamp (p : t) (screen_rect : Rect.t) : t :=
  if negb (Rect.contains screen_rect (rect p)) then
    let r := Rect.clamp_ip (rect p) screen_rect in
    {| image := image p; rect := r;
       true_pos := of_int2 (Rect.center r); speed := speed p |}
  else p.

Definition update (p : t) (keys : Keys) (screen_rect : Rect.t) (dt : Qc)
  : t :=
  clamp (place (integrate p keys dt)) screen_rect.

(** [draw] paints on the surface it is given and returns the player. *)
Definition draw (p : t) (surface : Surface.t) : t * Surface.t :=
  (p, Surface.blit surface (image p) (rect p)).

(** Whether [update] takes the clamping branch. *)
Definition clamps (p : t) (keys : Keys) (screen_rect : Rect.t) (dt : Qc)
  : bool :=
  negb (Rect.contains screen_rect (rect (place (integrate p keys dt)))).

(** The states a Player object goes through: built by [__init__], then
    changed by its methods only. *)
Inductive reachable : t -> Prop :=
| reach_init pos speed : reachable (init pos speed)
| reach_update p keys screen_rect dt :
    reachable p -> reachable (update p keys screen_rect dt)
| reach_clamp p screen_rect : reachable p -> reachable (clamp p screen_rect)
| reach_draw p surface : reachable p -> reachable (fst (draw p surface)).

End Player.

(** ** The integration step in binary64 *)

(** The [for] loop of [Player.update] with the arithmetic Python performs:
    [true_pos] and [dt] are binary64 floats and each [*] and [+=] rounds on
    its own.  An int operand (a component of [DIRECT_DICT], a speed such as
    300, a position set by a clamp) enters an operation with a float as the
    float of the same value. *)
Module Float64.

(** A Python int as a float (exact below 2^53). *)
Definition of_int (z : Z) : PrimFloat.float :=
  if z <? 0 then PrimFloat.opp (PrimFloat.of_uint63 (Uint63.of_Z (- z)))
  else PrimFloat.of_uint63 (Uint63.of_Z z).

(** [self.clock.tick(self.fps) / 1000.0] *)
Definition seconds (ms : Z) : PrimFloat.float :=
  PrimFloat.div (of_int ms) (of_int 1000).

(** Body of the loop for one key: [DIRECT_DICT[key][i]*self.speed*dt] is
    [(d * speed) * dt], added to [true_pos[i]]. *)
Definition move (keys : Keys) (speed dt : PrimFloat.float)
    (pos : PrimFloat.float * PrimFloat.float) (key : Key)
  : PrimFloat.float * PrimFloat.float :=
  if keys key then
    match dict_get DIRECT_DICT key with
    | Some d =>
        (PrimFloat.add (fst pos)
           (PrimFloat.mul (PrimFloat.mul (of_int (fst d)) speed) dt),
         PrimFloat.add (snd pos)
           (PrimFloat.mul (PrimFloat.mul (of_int (snd d)) speed) dt))
    | None => pos
    end
  else pos.

(** The [for] loop: [true_pos] after it, from [true_pos] before it. *)
Definition integrate (pos : PrimFloat.float * PrimFloat.float)
    (speed : PrimFloat.float) (keys : Keys) (dt : PrimFloat.float)
  : PrimFloat.float * PrimFloat.float :=
  fold_left (move keys speed dt) (dict_keys DIRECT_DICT) pos.

End Float64.

(** ** Events, the clock and the log of what the program did *)

(** [event.type], as far as [event_loop] tells types apart. *)
Inductive Event := QUIT | KEYDOWN | KEYUP | OTHER.

Definition is_quit (e : Event) : bool :=
  match e with QUIT => true | _ => false end.

(** What the environment supplies during one pass of the main loop: the
    events returned by [pg.event.get()], the key state [pg.key.get_pressed()]
    reports, and the milliseconds returned by [clock.tick]. *)
Record Frame := { polled : list Event; pressed : Keys; ticked : Z }.

Definition quits (f : Frame) : bool := existsb is_quit (polled f).

Inductive Action :=
| Ticked (fps ms : Z)
| Polled (events : list Event)
| Updated (dt : Qc)
| Rendered.

(** ** class App *)

Module App.

Record t := mk {
  screen : Surface.t;
  screen_rect : Rect.t;
  fps : Z;
  done : bool;
  keys : Keys;
  player : Player.t
}.

(** The object together with the log of its calls. *)
Record World := { self : t; log : list Action }.

Definition say (a : Action) (w : World) (s : t) : World :=
  {| self := s; log := log w ++ [a] |}.

(** [__init__]: [display] is [pg.display.get_surface()] and [held] the
    first [pg.key.get_pressed()]. *)
Definition init (display : Surface.t) (held : Keys) : t :=
  let screen_rect := Surface.get_rect display in
  {| screen := display; screen_rect := screen_rect; fps := 60;
     done := false; keys := held;
     player := Player.init (Rect.center screen_rect) (of_int 300) |}.

(** One event of the [for] loop of [event_loop]. *)
Definition handle (held : Keys) (s : t) (event : Event) : t :=
  match event with
  | QUIT =>
      {| screen := screen s; screen_rect := screen_rect s; fps := fps s;
         done := true; keys := keys s; player := player s |}
  | KEYDOWN | KEYUP =>
      {| screen := screen s; screen_rect := screen_rect s; fps := fps s;
         done := done s; keys := held; player := player s |}
  | OTHER => s
  end.

Definition event_loop (f : Frame) (w : World) : World :=
  say (Polled (polled f)) w (fold_left (handle (pressed f)) (polled f) (self w)).

Definition update (dt : Qc) (w : World) : World :=
  let s := self w in
  say (Updated dt) w
    {| screen := screen s; screen_rect := screen_rect s; fps := fps s;
       done := done s; keys := keys s;
       player := Player.update (player s) (keys s) (screen_rect s) dt |}.

Definition render (w : World) : World :=
  let s := self w in
  let filled := Surface.fill (screen s) BACKGROUND_COLOR in
  let '(p, shown) := Player.draw (player s) filled in
  say Rendered w
    {| screen := shown; screen_rect := screen_rect s; fps := fps s;
       done := done s; keys := keys s; player := p |}.

(** [self.clock.tick(self.fps)]: returns the milliseconds it measured. *)
Definition tick (ms : Z) (w : World) : Z * World :=
  (ms, say (Ticked (fps (self w)) ms) w (self w)).

(** [... / 1000.0] *)
Definition seconds (ms : Z) : Qc := (of_int ms / of_int 1000)%Qc.

(** The body of the [while] loop; returns the next [dt]. *)
Definition body (f : Frame) (dt : Qc) (w : World) : Qc * World :=
  let w := event_loop f w in
  let w := update dt w in
  let w := render w in
  let '(ms, w) := tick (ticked f) w in
  (seconds ms, w).

(** How a run over finitely many frames of input ends: the loop has
    returned, or it is still running and waits for the next frame. *)
Inductive Outcome :=
| Returned (w : World)
| Running (dt : Qc) (w : World).

(** [while not self.done: ...] *)
Fixpoint while_not_done (frames : list Frame) (dt : Qc) (w : World)
  : Outcome :=
  if done (self w) then Returned w
  else
    match frames with
    | [] => Running dt w
    | f :: frames' =>
        let '(dt', w') := body f dt w in
        while_not_done frames' dt' w'
    end.

Definition main_loop (first_tick : Z) (frames : list Frame) (s : t)
  : Outcome :=
  let dt := of_int 0 in
  let '(_, w) := tick first_tick {| self := s; log := [] |} in
  while_not_done frames dt w.

End App.

(** [main], up to [pg.quit()]. *)
Definition main (held : Keys) (first_tick : Z) (frames : list Frame)
  : App.Outcome :=
  App.main_loop first_tick frames
    (App.init (Surface.set_mode SCREEN_SIZE) held).

(** ** Vocabulary of the properties *)

Definition vadd (a b : Qc * Qc) : Qc * Qc :=
  ((fst a + fst b)%Qc, (snd a + snd b)%Qc).

Definition vsum (l : list (Qc * Qc)) : Qc * Qc :=
  fold_right vadd (of_int 0, of_int 0) l.

(** The unit direction vector of a key. *)
Definition unit_vector (k : Key) : Z * Z :=
  match k with
  | K_LEFT => (-1, 0)
  | K_RIGHT => (1, 0)
  | K_UP => (0, -1)
  | K_DOWN => (0, 1)
  | K_OTHER _ => (0, 0)
  end.

Definition directional : list Key := [K_LEFT; K_RIGHT; K_UP; K_DOWN].

(** The directional keys that are held. *)
Definition held_keys (keys : Keys) : list Key := filter keys directional.

(** A key's unit direction vector times speed times elapsed time. *)
Definition step_of (speed dt : Qc) (k : Key) : Qc * Qc :=
  ((of_int (fst (unit_vector k)) * speed * dt)%Qc,
   (of_int (snd (unit_vector k)) * speed * dt)%Qc).

(** The key state in which exactly the keys of [ks] are held. *)
Definition holding (ks : list Key) : Keys :=
  fun k => existsb (Key_eqb k) ks.

Definition no_keys : Keys := holding [].




(** A number without fractional part. *)
Definition whole (q : Qc) : Prop := exists z : Z, q = of_int z.

(** The log of complete passes of the loop over [frames], the first update
    being given [dt]: poll, update, render, tick, and the next pass is given
    the milliseconds of this tick divided by 1000. *)
Fixpoint passes (fps : Z) (dt : Qc) (frames : list Frame) : list Action :=
  match frames with
  | [] => []
  | f :: frames' =>
      [Polled (polled f); Updated dt; Rendered; Ticked fps (ticked f)]
        ++ passes fps (of_int (ticked f) / of_int 1000)%Qc frames'
  end.

(** The class invariant of Player: the rect has the sprite's size and sits
    where the exact position truncates to. *)
Definition sized (p : Player.t) : Prop :=
  Rect.w (Player.rect p) = fst Player.SIZE /\
  Rect.h (Player.rect p) = snd Player.SIZE.

Definition synced (p : Player.t) : Prop :=
  Rect.center (Player.rect p) = to_int2 (Player.true_pos p).

(** The viewport is at least as large as the sprite. *)
Definition roomy (screen_rect : Rect.t) : Prop :=
  fst Player.SIZE <= Rect.w screen_rect /\
  snd Player.SIZE <= Rect.h screen_rect.

(** The [dt] in force after complete passes over [frames]. *)
Definition dt_after (dt : Qc) (frames : list Frame) : Qc :=
  fold_left (fun _ f => (of_int (ticked f) / of_int 1000)%Qc) frames dt.

(** ** Sample data *)

Definition screen_500 : Rect.t :=
  Surface.get_rect (Surface.set_mode SCREEN_SIZE).

Definition screen_50 : Rect.t := Surface.get_rect (Surface.set_mode (50, 50)).

Definition centred_player : Player.t := Player.init (250, 250) (of_int 300).

(** A player built at the top-left corner of the screen: half of its sprite
    is outside. *)
Definition corner_player : Player.t := Player.init (0, 0) (of_int 300).

(** A player touching the left edge of the 500 x 500 screen. *)
Definition edge_player : Player.t := Player.init (50, 250) (of_int 300).

Definition sixtieth : Qc := Q2Qc (1 # 60).

Definition idle_frame : Frame :=
  {| polled := []; pressed := no_keys; ticked := 16 |}.

Definition key_frame : Frame :=
  {| polled := [KEYDOWN; OTHER]; pressed := holding [K_UP; K_LEFT];
     ticked := 17 |}.

Definition quit_frame : Frame :=
  {| polled := [KEYUP; QUIT]; pressed := no_keys; ticked := 16 |}.

(** ** Vocabulary for runs of the program *)

(** The object and log a run over finitely many frames ends with. *)
Definition world_of (o : App.Outcome) : App.World :=
  match o with
  | App.Returned w => w
  | App.Running _ w => w
  end.

(** The events that make [event_loop] read the key state again. *)
Definition is_key_event (e : Event) : bool :=
  match e with KEYDOWN | KEYUP => true | _ => false end.

(** The [dt] arguments of the calls to [update] recorded in a log. *)
Fixpoint update_dts (log : list Action) : list Qc :=
  match log with
  | [] => []
  | Updated dt :: log' => dt :: update_dts log'
  | _ :: log' => update_dts log'
  end.

(** Two key states that agree on the four arrow keys. *)
Definition same_arrows (keys keys' : Keys) : Prop :=
  forall k, In k directional -> keys k = keys' k.

(** ** Vocabulary for binary64 *)

Definition vadd64 (a b : PrimFloat.float * PrimFloat.float)
  : PrimFloat.float * PrimFloat.float :=
  (PrimFloat.add (fst a) (fst b), PrimFloat.add (snd a) (snd b)).

Definition vsum64 (l : list (PrimFloat.float * PrimFloat.float))
  : PrimFloat.float * PrimFloat.float :=
  fold_right vadd64 (Float64.of_int 0, Float64.of_int 0) l.

(** A key's unit direction vector times speed times elapsed time. *)
Definition step64 (speed dt : PrimFloat.float) (k : Key)
  : PrimFloat.float * PrimFloat.float :=
  (PrimFloat.mul
     (PrimFloat.mul (Float64.of_int (fst (unit_vector k))) speed) dt,
   PrimFloat.mul
     (PrimFloat.mul (Float64.of_int (snd (unit_vector k))) speed) dt).

(** Equal as binary64 numbers: the same float (which covers NaN), or two
    floats that compare equal (which covers the two zeros). *)
Definition same64 (a b : PrimFloat.float) : Prop :=
  a = b \/ PrimFloat.eqb a b = true.

(** Two opposite arrow keys are held together. *)
Definition opposite_held (keys : Keys) : bool :=
  (keys K_LEFT && keys K_RIGHT) || (keys K_UP && keys K_DOWN).

Definition sf_zero (a : SpecFloat.spec_float) : bool :=
  match a with SpecFloat.S754_zero _ => true | _ => false end.

(** The same relation on the specification of a float. *)
Definition near (a b : SpecFloat.spec_float) : Prop :=
  a = b \/ (sf_zero a = true /\ sf_zero b = true).


(** The rational number a finite float stands for. *)
Definition sf_value (a : SpecFloat.spec_float) : Q :=
  match a with
  | SpecFloat.S754_finite s m e =>
      ((if s then - (1) else 1) * inject_Z (Zpos m) * Qpower 2 e)%Q
  | _ => 0%Q
  end.

Definition value64 (x : PrimFloat.float) : Qc :=
  Q2Qc (sf_value (FloatOps.Prim2SF x)).

Definition value64_2 (v : PrimFloat.float * PrimFloat.float) : Qc * Qc :=
  (value64 (fst v), value64 (snd v)).

(** The displacement one update adds to the exact position: the vector sum
    of what the loop adds for each held key, as exact numbers. *)
Definition delta64 (speed dt : PrimFloat.float) (keys : Keys) : Qc * Qc :=
  vsum (map (fun k => value64_2 (step64 speed dt k)) (held_keys keys)).

(** ** Sample data in binary64 *)

Definition centre64 : PrimFloat.float * PrimFloat.float :=
  (Float64.of_int 250, Float64.of_int 250).

Definition speed64 : PrimFloat.float := Float64.of_int 300.

(** Where the centred player is after a frame of 17 ms with left held. *)
Definition after_left64 : PrimFloat.float * PrimFloat.float :=
  Float64.integrate centre64 speed64 (holding [K_LEFT]) (Float64.seconds 17).

(** A frame in which a key goes down and the window is closed. *)
Definition last_frame : Frame :=
  {| polled := [KEYDOWN; QUIT]; pressed := holding [K_LEFT]; ticked := 16 |}.

(** * Proofs *)

(** ** Numbers *)

Lemma of_int_0 : of_int 0 = 0%Qc.
Proof. apply Qc_is_canon. reflexivity. Qed.

Lemma of_int_1 : of_int 1 = 1%Qc.
Proof. apply Qc_is_canon. reflexivity. Qed.

Lemma of_int_m1 : of_int (-1) = (- (1))%Qc.
Proof. apply Qc_is_canon. reflexivity. Qed.

Lemma to_int_of_int (z : Z) : to_int (of_int z) = z.
Proof.
  unfold to_int, of_int, Q2Qc; cbn [this].
  destruct (Qle_bool 0 (Qred (inject_Z z))).
  - rewrite (Qfloor_comp _ _ (Qred_correct _)). apply Qfloor_Z.
  - rewrite (Qceiling_comp _ _ (Qred_correct _)). apply Qceiling_Z.
Qed.

Lemma to_int2_of_int2 (c : Z * Z) : to_int2 (of_int2 c) = c.
Proof.
  destruct c as [a b]. unfold to_int2, of_int2; cbn [fst snd].
  now rewrite !to_int_of_int.
Qed.

Lemma of_int_whole (z : Z) : whole (of_int z).
Proof. now exists z. Qed.

(** ** Rect *)

Lemma center_set_center (r : Rect.t) (c : Z * Z) :
  Rect.center (Rect.set_center r c) = c.
Proof.
  destruct c as [a b]. unfold Rect.center, Rect.set_center; cbn.
  f_equal; lia.
Qed.

Lemma set_center_center (r : Rect.t) : Rect.set_center r (Rect.center r) = r.
Proof.
  destruct r as [a b c d]. unfold Rect.center, Rect.set_center; cbn.
  f_equal; lia.
Qed.

Lemma contains_spec (s r : Rect.t) :
  Rect.contains s r = true <->
  Rect.x s <= Rect.x r /\ Rect.y s <= Rect.y r /\
  Rect.x r + Rect.w r <= Rect.x s + Rect.w s /\
  Rect.y r + Rect.h r <= Rect.y s + Rect.h s /\
  Rect.x r < Rect.x s + Rect.w s /\ Rect.y r < Rect.y s + Rect.h s.
Proof.
  unfold Rect.contains.
  rewrite !andb_true_iff, !Z.leb_le, !Z.ltb_lt. tauto.
Qed.

(** Along one axis a segment of positive length that is not longer than
    the target ends up inside it. *)
Lemma clamp_axis_inside (pos len apos alen : Z) :
  0 < len -> len <= alen ->
  let c := Rect.clamp_axis pos len apos alen in
  apos <= c /\ c + len <= apos + alen /\ c < apos + alen.
Proof.
  intros Hpos Hfit. unfold Rect.clamp_axis.
  destruct (alen <=? len) eqn:E1.
  - apply Z.leb_le in E1. assert (alen = len) as -> by lia. lia.
  - apply Z.leb_gt in E1.
    destruct (pos <? apos) eqn:E2; [lia|]. apply Z.ltb_ge in E2.
    destruct (apos + alen <? pos + len) eqn:E3; [lia|].
    apply Z.ltb_ge in E3. lia.
Qed.

Lemma clamp_ip_contained (r s : Rect.t) :
  0 < Rect.w r -> 0 < Rect.h r ->
  Rect.w r <= Rect.w s -> Rect.h r <= Rect.h s ->
  Rect.contains s (Rect.clamp_ip r s) = true.
Proof.
  intros Hw Hh Fw Fh. apply contains_spec. cbn.
  pose proof (clamp_axis_inside (Rect.x r) _ (Rect.x s) _ Hw Fw).
  pose proof (clamp_axis_inside (Rect.y r) _ (Rect.y s) _ Hh Fh).
  cbv zeta in *. lia.
Qed.

(** ** Player: the integration step *)

Lemma dict_get_of_key (k : Key) :
  In k (dict_keys DIRECT_DICT) ->
  dict_get DIRECT_DICT k = Some (unit_vector k).
Proof.
  cbn. intros [<-|[<-|[<-|[<-|[]]]]]; reflexivity.
Qed.

(** With exact arithmetic the loop leaves the prior position plus the sum
    of the held keys' steps, for every combination of keys. *)
Lemma integrate_true_pos (p : Player.t) (keys : Keys) (dt : Qc) :
  Player.true_pos (Player.integrate p keys dt) =
  vadd (Player.true_pos p)
       (vsum (map (step_of (Player.speed p) dt) (held_keys keys))).
Proof.
  unfold Player.integrate, held_keys, vadd, vsum, step_of; cbn.
  unfold Player.move; cbn.
  destruct (Player.true_pos p) as [x y]; cbn.
  destruct (keys K_LEFT), (keys K_RIGHT), (keys K_UP), (keys K_DOWN); cbn;
    rewrite ?of_int_0, ?of_int_1, ?of_int_m1; f_equal; ring.
Qed.

Lemma integrate_same_pos (p : Player.t) (keys : Keys) (dt : Qc) :
  Player.true_pos (Player.integrate p keys dt) = Player.true_pos p ->
  Player.integrate p keys dt = p.
Proof.
  destruct p as [i r tp s]. unfold Player.integrate; cbn.
  now intros ->.
Qed.

Lemma integrate_zero_dt (p : Player.t) (keys : Keys) :
  Player.integrate p keys 0%Qc = p.
Proof.
  apply integrate_same_pos. rewrite integrate_true_pos.
  destruct (Player.true_pos p) as [x y].
  unfold held_keys, vadd, vsum, step_of; cbn.
  destruct (keys K_LEFT), (keys K_RIGHT), (keys K_UP), (keys K_DOWN); cbn;
    rewrite ?of_int_0; f_equal; ring.
Qed.

Lemma integrate_no_keys (p : Player.t) (keys : Keys) (dt : Qc) :
  held_keys keys = [] -> Player.integrate p keys dt = p.
Proof.
  intros H. apply integrate_same_pos. rewrite integrate_true_pos, H.
  destruct (Player.true_pos p) as [x y].
  unfold vadd, vsum; cbn. rewrite of_int_0. f_equal; ring.
Qed.

(** ** Player: the class invariant *)

Lemma place_synced (p : Player.t) : synced p -> Player.place p = p.
Proof.
  destruct p as [i r tp s]. unfold synced, Player.place; cbn.
  intros <-. now rewrite set_center_center.
Qed.

Lemma clamp_inside (p : Player.t) (screen_rect : Rect.t) :
  Rect.contains screen_rect (Player.rect p) = true ->
  Player.clamp p screen_rect = p.
Proof. unfold Player.clamp. now intros ->. Qed.

Lemma clamp_outside (p : Player.t) (screen_rect : Rect.t) :
  Rect.contains screen_rect (Player.rect p) = false ->
  Player.clamp p screen_rect =
  Player.mk (Player.image p) (Rect.clamp_ip (Player.rect p) screen_rect)
    (of_int2 (Rect.center (Rect.clamp_ip (Player.rect p) screen_rect)))
    (Player.speed p).
Proof. unfold Player.clamp. now intros ->. Qed.

Lemma init_invariant (pos : Z * Z) (speed : Qc) :
  sized (Player.init pos speed) /\ synced (Player.init pos speed).
Proof.
  split; [split; reflexivity|].
  unfold synced, Player.init; cbn [Player.rect Player.true_pos].
  now rewrite to_int2_of_int2.
Qed.

Lemma clamp_invariant (p : Player.t) (screen_rect : Rect.t) :
  sized p /\ synced p ->
  sized (Player.clamp p screen_rect) /\ synced (Player.clamp p screen_rect).
Proof.
  intros [Hs Hy].
  destruct (Rect.contains screen_rect (Player.rect p)) eqn:E.
  - now rewrite clamp_inside.
  - rewrite clamp_outside by assumption. split.
    + exact Hs.
    + unfold synced; cbn [Player.rect Player.true_pos].
      now rewrite to_int2_of_int2.
Qed.

Lemma place_invariant (p : Player.t) :
  sized p -> sized (Player.place p) /\ synced (Player.place p).
Proof.
  intros Hs. split.
  - exact Hs.
  - unfold synced, Player.place; cbn [Player.rect Player.true_pos].
    apply center_set_center.
Qed.

Lemma reachable_invariant (p : Player.t) :
  Player.reachable p -> sized p /\ synced p.
Proof.
  induction 1 as [pos speed | p keys screen_rect dt _ IH
                 | p screen_rect _ IH | p surface _ IH].
  - apply init_invariant.
  - unfold Player.update. apply clamp_invariant, place_invariant.
    exact (proj1 IH).
  - now apply clamp_invariant.
  - exact IH.
Qed.

(** ** Player.update *)

Lemma update_unclamped (p : Player.t) (keys : Keys) (screen_rect : Rect.t)
    (dt : Qc) :
  Player.clamps p keys screen_rect dt = false ->
  Player.update p keys screen_rect dt =
  Player.place (Player.integrate p keys dt).
Proof.
  unfold Player.clamps, Player.update. intros H.
  apply clamp_inside. now apply negb_false_iff.
Qed.

Lemma update_fixed_point (p : Player.t) (keys : Keys) (screen_rect : Rect.t)
    (dt : Qc) :
  synced p ->
  Rect.contains screen_rect (Player.rect p) = true ->
  Player.integrate p keys dt = p ->
  Player.update p keys screen_rect dt = p.
Proof.
  intros Hy Hin Hsame. unfold Player.update.
  rewrite Hsame, (place_synced p Hy). now apply clamp_inside.
Qed.

(** C2, as stated, fails: in a viewport smaller than the sprite the
    rectangle cannot lie within it; [clamp_ip] centres it instead. *)
Lemma update_leaves_small_viewport :
  Player.reachable centred_player /\
  Rect.contains screen_50
    (Player.rect (Player.update centred_player no_keys screen_50 0%Qc))
  = false.
Proof.
  split.
  - apply Player.reach_init.
  - vm_compute. reflexivity.
Qed.

(** C2, amended.  When the viewport is at least as large as the sprite,
    the display rectangle lies within the viewport after every
    [Player.update]; and whenever that update clamps, the exact position is
    exactly the centre of the clamped rectangle (otherwise it is the
    integrated position). *)
Theorem update_keeps_rect_in_viewport
    (p : Player.t) (keys : Keys) (screen_rect : Rect.t) (dt : Qc) :
  Player.reachable p ->
  roomy screen_rect ->
  Rect.contains screen_rect
    (Player.rect (Player.update p keys screen_rect dt)) = true /\
  Player.true_pos (Player.update p keys screen_rect dt) =
    if Player.clamps p keys screen_rect dt
    then of_int2
           (Rect.center (Player.rect (Player.update p keys screen_rect dt)))
    else Player.true_pos (Player.integrate p keys dt).
Proof.
  intros Hreach [Fw Fh].
  destruct (reachable_invariant p Hreach) as [[Hw Hh] _].
  unfold Player.clamps, Player.update.
  set (q := Player.place (Player.integrate p keys dt)).
  assert (Hqw : Rect.w (Player.rect q) = fst Player.SIZE) by exact Hw.
  assert (Hqh : Rect.h (Player.rect q) = snd Player.SIZE) by exact Hh.
  destruct (Rect.contains screen_rect (Player.rect q)) eqn:E.
  - rewrite (clamp_inside q screen_rect E). now split.
  - rewrite (clamp_outside q screen_rect E); cbn [Player.rect Player.true_pos].
    split; [|reflexivity].
    apply clamp_ip_contained; rewrite ?Hqw, ?Hqh; cbn in *; lia.
Qed.

Lemma update_keeps_rect_in_viewport_witness :
  Player.reachable edge_player /\ roomy screen_500 /\
  Rect.contains screen_500
    (Player.rect
       (Player.update edge_player (holding [K_LEFT]) screen_500 sixtieth))
  = true /\
  Player.true_pos
    (Player.update edge_player (holding [K_LEFT]) screen_500 sixtieth) =
    if Player.clamps edge_player (holding [K_LEFT]) screen_500 sixtieth
    then of_int2
           (Rect.center
              (Player.rect
                 (Player.update edge_player (holding [K_LEFT]) screen_500
                    sixtieth)))
    else Player.true_pos
           (Player.integrate edge_player (holding [K_LEFT]) sixtieth).
Proof.
  assert (Hr : Player.reachable edge_player) by apply Player.reach_init.
  assert (Hroom : roomy screen_500) by (split; cbn; lia).
  split; [exact Hr|]. split; [exact Hroom|].
  exact (update_keeps_rect_in_viewport edge_player (holding [K_LEFT])
           screen_500 sixtieth Hr Hroom).
Defined.

(** C4.  For a player whose display rectangle is within the viewport, an
    update with elapsed time zero changes neither the exact position nor the
    display rectangle, whatever keys are held. *)
Theorem update_zero_dt_unchanged
    (p : Player.t) (keys : Keys) (screen_rect : Rect.t) :
  Player.reachable p ->
  Rect.contains screen_rect (Player.rect p) = true ->
  Player.true_pos (Player.update p keys screen_rect 0%Qc) = Player.true_pos p /\
  Player.rect (Player.update p keys screen_rect 0%Qc) = Player.rect p.
Proof.
  intros Hreach Hin.
  destruct (reachable_invariant p Hreach) as [_ Hy].
  rewrite (update_fixed_point p keys screen_rect 0%Qc Hy Hin
             (integrate_zero_dt p keys)).
  now split.
Qed.

Lemma update_zero_dt_unchanged_witness :
  Player.reachable centred_player /\
  Rect.contains screen_500 (Player.rect centred_player) = true /\
  Player.true_pos
    (Player.update centred_player (holding [K_UP; K_LEFT]) screen_500 0%Qc) =
    Player.true_pos centred_player /\
  Player.rect
    (Player.update centred_player (holding [K_UP; K_LEFT]) screen_500 0%Qc) =
    Player.rect centred_player.
Proof.
  assert (Hr : Player.reachable centred_player) by apply Player.reach_init.
  assert (Hin : Rect.contains screen_500 (Player.rect centred_player) = true)
    by reflexivity.
  split; [exact Hr|]. split; [exact Hin|].
  exact (update_zero_dt_unchanged centred_player (holding [K_UP; K_LEFT])
           screen_500 Hr Hin).
Defined.

(** C5, as stated, fails: a player built with half of its sprite outside
    the screen is moved inside by its first update, with no key held. *)
Lemma idle_update_moves_corner_player :
  Player.reachable corner_player /\
  held_keys no_keys = [] /\
  (0 <= sixtieth)%Qc /\
  Player.true_pos corner_player = of_int2 (0, 0) /\
  Player.true_pos (Player.update corner_player no_keys screen_500 sixtieth) =
    of_int2 (50, 50) /\
  Player.true_pos (Player.update corner_player no_keys screen_500 sixtieth) <>
    Player.true_pos corner_player /\
  Player.rect (Player.update corner_player no_keys screen_500 sixtieth) <>
    Player.rect corner_player.
Proof.
  split; [apply Player.reach_init|].
  split; [reflexivity|].
  split; [apply Qle_bool_imp_le; reflexivity|].
  split; [reflexivity|].
  assert (E : Player.update corner_player no_keys screen_500 sixtieth =
              Player.mk Player.make_image (Rect.mk 0 0 100 100)
                (of_int2 (50, 50)) (of_int 300)).
  { unfold Player.update.
    rewrite (integrate_no_keys corner_player no_keys sixtieth eq_refl).
    rewrite (place_synced corner_player
               (proj2 (init_invariant (0, 0) (of_int 300)))).
    now rewrite clamp_outside by reflexivity. }
  rewrite E; cbn [Player.true_pos Player.rect].
  split; [reflexivity|]. split.
  - intros H. apply (f_equal to_int2) in H.
    change (Player.true_pos corner_player) with (of_int2 (0, 0)) in H.
    rewrite !to_int2_of_int2 in H. discriminate H.
  - discriminate.
Qed.

(** C5, amended.  When no directional key is held and the display rectangle
    is within the viewport, an update leaves the exact position and the
    display rectangle as they were, for every [dt >= 0]. *)
Theorem idle_update_unchanged
    (p : Player.t) (keys : Keys) (screen_rect : Rect.t) (dt : Qc) :
  Player.reachable p ->
  Rect.contains screen_rect (Player.rect p) = true ->
  held_keys keys = [] ->
  (0 <= dt)%Qc ->
  Player.true_pos (Player.update p keys screen_rect dt) = Player.true_pos p /\
  Player.rect (Player.update p keys screen_rect dt) = Player.rect p.
Proof.
  intros Hreach Hin Hidle _.
  destruct (reachable_invariant p Hreach) as [_ Hy].
  rewrite (update_fixed_point p keys screen_rect dt Hy Hin
             (integrate_no_keys p keys dt Hidle)).
  now split.
Qed.

Lemma idle_update_unchanged_witness :
  Player.reachable centred_player /\
  Rect.contains screen_500 (Player.rect centred_player) = true /\
  held_keys (holding [K_OTHER 32]) = [] /\
  (0 <= sixtieth)%Qc /\
  Player.true_pos
    (Player.update centred_player (holding [K_OTHER 32]) screen_500 sixtieth) =
    Player.true_pos centred_player /\
  Player.rect
    (Player.update centred_player (holding [K_OTHER 32]) screen_500 sixtieth) =
    Player.rect centred_player.
Proof.
  assert (Hr : Player.reachable centred_player) by apply Player.reach_init.
  assert (Hin : Rect.contains screen_500 (Player.rect centred_player) = true)
    by reflexivity.
  assert (Hidle : held_keys (holding [K_OTHER 32]) = []) by reflexivity.
  assert (Hdt : (0 <= sixtieth)%Qc) by (apply Qle_bool_imp_le; reflexivity).
  split; [exact Hr|]. split; [exact Hin|]. split; [exact Hidle|].
  split; [exact Hdt|].
  exact (idle_update_unchanged centred_player (holding [K_OTHER 32])
           screen_500 sixtieth Hr Hin Hidle Hdt).
Defined.

(** C8.  When the display rectangle derived from the new exact position is
    already contained in the viewport, [clamp] changes nothing: the update
    ends with the integrated exact position, fraction included, and with the
    rectangle placed at its truncation. *)
Theorem clamp_noop_when_contained
    (p : Player.t) (keys : Keys) (screen_rect : Rect.t) (dt : Qc) :
  Rect.contains screen_rect
    (Player.rect (Player.place (Player.integrate p keys dt))) = true ->
  Player.clamp (Player.place (Player.integrate p keys dt)) screen_rect =
    Player.place (Player.integrate p keys dt) /\
  Player.true_pos (Player.update p keys screen_rect dt) =
    Player.true_pos (Player.integrate p keys dt) /\
  Player.rect (Player.update p keys screen_rect dt) =
    Rect.set_center (Player.rect p)
      (to_int2 (Player.true_pos (Player.integrate p keys dt))).
Proof.
  intros Hin. unfold Player.update.
  rewrite (clamp_inside _ screen_rect Hin).
  repeat split.
Qed.

Lemma clamp_noop_when_contained_witness :
  Rect.contains screen_500
    (Player.rect
       (Player.place (Player.integrate centred_player (holding [K_UP])
                        (Q2Qc (1 # 1000))))) = true /\
  Player.clamp
    (Player.place (Player.integrate centred_player (holding [K_UP])
                     (Q2Qc (1 # 1000)))) screen_500 =
    Player.place (Player.integrate centred_player (holding [K_UP])
                    (Q2Qc (1 # 1000))) /\
  Player.true_pos
    (Player.update centred_player (holding [K_UP]) screen_500
       (Q2Qc (1 # 1000))) =
    Player.true_pos
      (Player.integrate centred_player (holding [K_UP]) (Q2Qc (1 # 1000))) /\
  Player.rect
    (Player.update centred_player (holding [K_UP]) screen_500
       (Q2Qc (1 # 1000))) =
    Rect.set_center (Player.rect centred_player)
      (to_int2
         (Player.true_pos
            (Player.integrate centred_player (holding [K_UP])
               (Q2Qc (1 # 1000))))).
Proof.
  assert (Hin : Rect.contains screen_500
                  (Player.rect
                     (Player.place
                        (Player.integrate centred_player (holding [K_UP])
                           (Q2Qc (1 # 1000))))) = true)
    by (vm_compute; reflexivity).
  split; [exact Hin|].
  exact (clamp_noop_when_contained centred_player (holding [K_UP]) screen_500
           (Q2Qc (1 # 1000)) Hin).
Defined.

(** C9.  Whenever [clamp] takes its out-of-bounds branch, the exact position
    becomes the integer centre of the clamped rectangle: both coordinates
    are whole numbers. *)
Theorem clamp_resyncs_to_whole_numbers
    (p : Player.t) (screen_rect : Rect.t) :
  Rect.contains screen_rect (Player.rect p) = false ->
  Player.rect (Player.clamp p screen_rect) =
    Rect.clamp_ip (Player.rect p) screen_rect /\
  Player.true_pos (Player.clamp p screen_rect) =
    of_int2 (Rect.center (Player.rect (Player.clamp p screen_rect))) /\
  whole (fst (Player.true_pos (Player.clamp p screen_rect))) /\
  whole (snd (Player.true_pos (Player.clamp p screen_rect))).
Proof.
  intros Hout. rewrite (clamp_outside p screen_rect Hout).
  cbn [Player.rect Player.true_pos of_int2 fst snd].
  repeat split; apply of_int_whole.
Qed.

(** C10.  [update] and [clamp] leave the speed and the image as they were
    (so they change the exact position and the rectangle only), and [draw]
    returns the whole player unchanged. *)
Theorem methods_keep_speed_and_image
    (p : Player.t) (keys : Keys) (screen_rect : Rect.t) (dt : Qc)
    (surface : Surface.t) :
  (Player.speed (Player.update p keys screen_rect dt) = Player.speed p /\
   Player.image (Player.update p keys screen_rect dt) = Player.image p) /\
  (Player.speed (Player.clamp p screen_rect) = Player.speed p /\
   Player.image (Player.clamp p screen_rect) = Player.image p) /\
  fst (Player.draw p surface) = p.
Proof.
  unfold Player.update, Player.clamp.
  destruct (negb (Rect.contains screen_rect
                    (Player.rect (Player.place (Player.integrate p keys dt))))),
           (negb (Rect.contains screen_rect (Player.rect p)));
    repeat split.
Qed.

Lemma clamp_resyncs_to_whole_numbers_witness :
  Rect.contains screen_500 (Player.rect corner_player) = false /\
  Player.rect (Player.clamp corner_player screen_500) =
    Rect.clamp_ip (Player.rect corner_player) screen_500 /\
  Player.true_pos (Player.clamp corner_player screen_500) =
    of_int2
      (Rect.center (Player.rect (Player.clamp corner_player screen_500))) /\
  whole (fst (Player.true_pos (Player.clamp corner_player screen_500))) /\
  whole (snd (Player.true_pos (Player.clamp corner_player screen_500))).
Proof.
  assert (Hout : Rect.contains screen_500 (Player.rect corner_player) = false)
    by reflexivity.
  split; [exact Hout|].
  exact (clamp_resyncs_to_whole_numbers corner_player screen_500 Hout).
Defined.

(** ** Binary64: the integration step *)

Lemma near_refl (a : SpecFloat.spec_float) : near a a.
Proof. now left. Qed.

Lemma near_sym (a b : SpecFloat.spec_float) : near a b -> near b a.
Proof. intros [->|[Ha Hb]]; [now left | now right]. Qed.

Lemma near_trans (a b c : SpecFloat.spec_float) :
  near a b -> near b c -> near a c.
Proof.
  intros [->|[Ha Hb]] [<-|[Hb' Hc]]; try (now left); right; now split.
Qed.

Lemma sfadd_zero_r (v z : SpecFloat.spec_float) :
  sf_zero z = true -> near (FloatAxioms.SF64add v z) v.
Proof.
  destruct z as [s| | |]; try discriminate. intros _.
  destruct v as [[]| | |]; destruct s; cbn;
    try (now left); now right.
Qed.

Lemma sfadd_zero_l (v z : SpecFloat.spec_float) :
  sf_zero z = true -> near (FloatAxioms.SF64add z v) v.
Proof.
  destruct z as [s| | |]; try discriminate. intros _.
  destruct v as [[]| | |]; destruct s; cbn;
    try (now left); now right.
Qed.

Lemma sfadd_zero_zero (a b : SpecFloat.spec_float) :
  sf_zero a = true -> sf_zero b = true ->
  sf_zero (FloatAxioms.SF64add a b) = true.
Proof.
  destruct a as [[]| | |], b as [[]| | |]; try discriminate; reflexivity.
Qed.

Lemma sfadd_near_r (x a a' : SpecFloat.spec_float) :
  near a a' -> near (FloatAxioms.SF64add x a) (FloatAxioms.SF64add x a').
Proof.
  intros [->|[Ha Ha']]; [apply near_refl|].
  apply near_trans with x; [now apply sfadd_zero_r|].
  apply near_sym. now apply sfadd_zero_r.
Qed.

Lemma sfadd_near_l (x a a' : SpecFloat.spec_float) :
  near a a' -> near (FloatAxioms.SF64add a x) (FloatAxioms.SF64add a' x).
Proof.
  intros [->|[Ha Ha']]; [apply near_refl|].
  apply near_trans with x; [now apply sfadd_zero_l|].
  apply near_sym. now apply sfadd_zero_l.
Qed.

Lemma sfadd_nan_r (v : SpecFloat.spec_float) :
  FloatAxioms.SF64add v SpecFloat.S754_nan = SpecFloat.S754_nan.
Proof. now destruct v as [[]|[]| |]. Qed.

Lemma sfadd_nan_l (v : SpecFloat.spec_float) :
  FloatAxioms.SF64add SpecFloat.S754_nan v = SpecFloat.S754_nan.
Proof. reflexivity. Qed.

Lemma sf_of_int_0 :
  FloatOps.Prim2SF (Float64.of_int 0) = SpecFloat.S754_zero false.
Proof. reflexivity. Qed.

(** The contribution of a key to the axis it does not move along,
    [(0 * speed) * dt], is a zero, or NaN when speed or dt is not finite. *)
Lemma zero_step (s dt : PrimFloat.float) :
  let z := PrimFloat.mul (PrimFloat.mul (Float64.of_int 0) s) dt in
  FloatOps.Prim2SF z = SpecFloat.S754_nan \/
  sf_zero (FloatOps.Prim2SF z) = true.
Proof.
  cbv zeta. rewrite !FloatAxioms.mul_spec, sf_of_int_0.
  destruct (FloatOps.Prim2SF s) as [[]|[]| |[] ? ?],
           (FloatOps.Prim2SF dt) as [[]|[]| |[] ? ?]; cbn; auto.
Qed.

Lemma near_same64 (a b : PrimFloat.float) :
  near (FloatOps.Prim2SF a) (FloatOps.Prim2SF b) -> same64 a b.
Proof.
  intros [H|[Ha Hb]].
  - left. now apply FloatAxioms.Prim2SF_inj.
  - right. rewrite FloatAxioms.eqb_spec.
    destruct (FloatOps.Prim2SF a) as [[]| | |]; try discriminate;
    destruct (FloatOps.Prim2SF b) as [[]| | |]; try discriminate; reflexivity.
Qed.

Lemma add_zero_near (x : PrimFloat.float) :
  near (FloatOps.Prim2SF x)
       (FloatOps.Prim2SF (PrimFloat.add x (Float64.of_int 0))).
Proof.
  rewrite FloatAxioms.add_spec, sf_of_int_0.
  apply near_sym. now apply sfadd_zero_r.
Qed.

(** One contribution: adding it equals adding the sum that holds it. *)
Lemma add_one_step (x c : PrimFloat.float) :
  near (FloatOps.Prim2SF (PrimFloat.add x c))
       (FloatOps.Prim2SF (PrimFloat.add x (PrimFloat.add c (Float64.of_int 0)))).
Proof.
  rewrite (FloatAxioms.add_spec x c), (FloatAxioms.add_spec x (PrimFloat.add _ _)).
  apply sfadd_near_r, add_zero_near.
Qed.

(** A contribution and then a zero contribution of a key of the other
    axis. *)
Lemma add_step_then_zero (x c z : PrimFloat.float) :
  FloatOps.Prim2SF z = SpecFloat.S754_nan \/
    sf_zero (FloatOps.Prim2SF z) = true ->
  near (FloatOps.Prim2SF (PrimFloat.add (PrimFloat.add x c) z))
       (FloatOps.Prim2SF
          (PrimFloat.add x
             (PrimFloat.add c (PrimFloat.add z (Float64.of_int 0))))).
Proof.
  intros Hz. rewrite !FloatAxioms.add_spec, sf_of_int_0.
  destruct Hz as [-> | Hz].
  - rewrite sfadd_nan_l, !sfadd_nan_r. apply near_refl.
  - apply near_trans
      with (FloatAxioms.SF64add (FloatOps.Prim2SF x) (FloatOps.Prim2SF c)).
    + now apply sfadd_zero_r.
    + apply sfadd_near_r, near_sym, sfadd_zero_r.
      now apply sfadd_zero_zero.
Qed.

(** A zero contribution first, then a contribution. *)
Lemma add_zero_then_step (y z c : PrimFloat.float) :
  FloatOps.Prim2SF z = SpecFloat.S754_nan \/
    sf_zero (FloatOps.Prim2SF z) = true ->
  near (FloatOps.Prim2SF (PrimFloat.add (PrimFloat.add y z) c))
       (FloatOps.Prim2SF
          (PrimFloat.add y
             (PrimFloat.add z (PrimFloat.add c (Float64.of_int 0))))).
Proof.
  intros Hz. rewrite !FloatAxioms.add_spec, sf_of_int_0.
  destruct Hz as [-> | Hz].
  - rewrite sfadd_nan_l, !sfadd_nan_r, sfadd_nan_l. apply near_refl.
  - apply near_trans
      with (FloatAxioms.SF64add (FloatOps.Prim2SF y) (FloatOps.Prim2SF c)).
    + apply sfadd_near_l. now apply sfadd_zero_r.
    + apply sfadd_near_r, near_sym.
      apply near_trans
        with (FloatAxioms.SF64add (FloatOps.Prim2SF c)
                (SpecFloat.S754_zero false)).
      * now apply sfadd_zero_l.
      * now apply sfadd_zero_r.
Qed.

Ltac settle64 :=
  apply near_same64;
  first [ apply add_zero_near
        | apply add_one_step
        | apply add_step_then_zero, zero_step
        | apply add_zero_then_step, zero_step ].

(** C1, amended.  In binary64, for every starting position, speed,
    [dt >= 0] and combination of held arrow keys in which no two opposite
    keys are held together, the exact position after the integration step
    of [Player.update] (before clamping) equals, as a number, the prior
    position plus the sum over the held keys of the key's unit vector times
    speed times [dt]. *)
Theorem integrate64_adds_held_keys
    (pos : PrimFloat.float * PrimFloat.float) (speed : PrimFloat.float)
    (keys : Keys) (dt : PrimFloat.float) :
  PrimFloat.leb (Float64.of_int 0) dt = true ->
  opposite_held keys = false ->
  same64 (fst (Float64.integrate pos speed keys dt))
         (fst (vadd64 pos
                 (vsum64 (map (step64 speed dt) (held_keys keys))))) /\
  same64 (snd (Float64.integrate pos speed keys dt))
         (snd (vadd64 pos
                 (vsum64 (map (step64 speed dt) (held_keys keys))))).
Proof.
  intros _ Hopp. destruct pos as [x y].
  unfold opposite_held in Hopp.
  unfold Float64.integrate, Float64.move, held_keys, vsum64, step64, vadd64.
  cbn -[Float64.of_int PrimFloat.add PrimFloat.mul].
  destruct (keys K_LEFT), (keys K_RIGHT), (keys K_UP), (keys K_DOWN);
    try discriminate Hopp;
    cbn -[Float64.of_int PrimFloat.add PrimFloat.mul];
    split; settle64.
Qed.

Lemma integrate64_adds_held_keys_witness :
  PrimFloat.leb (Float64.of_int 0) (Float64.seconds 69) = true /\
  opposite_held (holding [K_LEFT; K_UP]) = false /\
  same64
    (fst (Float64.integrate after_left64 speed64 (holding [K_LEFT; K_UP])
            (Float64.seconds 69)))
    (fst (vadd64 after_left64
            (vsum64 (map (step64 speed64 (Float64.seconds 69))
                         (held_keys (holding [K_LEFT; K_UP])))))) /\
  same64
    (snd (Float64.integrate after_left64 speed64 (holding [K_LEFT; K_UP])
            (Float64.seconds 69)))
    (snd (vadd64 after_left64
            (vsum64 (map (step64 speed64 (Float64.seconds 69))
                         (held_keys (holding [K_LEFT; K_UP])))))).
Proof.
  assert (Hdt : PrimFloat.leb (Float64.of_int 0) (Float64.seconds 69) = true)
    by (vm_compute; reflexivity).
  split; [exact Hdt|]. split; [reflexivity|].
  exact (integrate64_adds_held_keys after_left64 speed64
           (holding [K_LEFT; K_UP]) (Float64.seconds 69) Hdt eq_refl).
Defined.

(** C1, as stated, fails in binary64 when two opposite keys are held
    together.  The centred player of speed 300 is moved left for one frame
    of 17 ms; in the next frame, of 69 ms, left and right are both held.
    The two contributions sum to zero, so prior position plus sum is the
    prior position, but the loop adds them one after the other and ends
    just below it. *)
Lemma opposite_keys_do_not_cancel_in_binary64 :
  PrimFloat.leb (Float64.of_int 0) (Float64.seconds 69) = true /\
  held_keys (holding [K_LEFT; K_RIGHT]) = [K_LEFT; K_RIGHT] /\
  fst (vsum64 (map (step64 speed64 (Float64.seconds 69))
                   (held_keys (holding [K_LEFT; K_RIGHT])))) =
    Float64.of_int 0 /\
  fst (vadd64 after_left64
         (vsum64 (map (step64 speed64 (Float64.seconds 69))
                      (held_keys (holding [K_LEFT; K_RIGHT]))))) =
    fst after_left64 /\
  PrimFloat.ltb
    (fst (Float64.integrate after_left64 speed64 (holding [K_LEFT; K_RIGHT])
            (Float64.seconds 69)))
    (fst after_left64) = true /\
  ~ same64
      (fst (Float64.integrate after_left64 speed64
              (holding [K_LEFT; K_RIGHT]) (Float64.seconds 69)))
      (fst (vadd64 after_left64
              (vsum64 (map (step64 speed64 (Float64.seconds 69))
                           (held_keys (holding [K_LEFT; K_RIGHT])))))).
Proof.
  split; [vm_compute; reflexivity|]. split; [reflexivity|].
  split; [vm_compute; reflexivity|]. split; [vm_compute; reflexivity|].
  split; [vm_compute; reflexivity|].
  assert (E : PrimFloat.eqb
                (fst (Float64.integrate after_left64 speed64
                        (holding [K_LEFT; K_RIGHT]) (Float64.seconds 69)))
                (fst (vadd64 after_left64
                        (vsum64 (map (step64 speed64 (Float64.seconds 69))
                                     (held_keys (holding [K_LEFT; K_RIGHT]))))))
              = false) by (vm_compute; reflexivity).
  intros [H|H].
  - rewrite H in E. vm_compute in E. discriminate E.
  - rewrite E in H. discriminate H.
Qed.

(** ** Diagonal movement *)







Lemma value64_zero_step (s dt : PrimFloat.float) :
  value64 (PrimFloat.mul (PrimFloat.mul (Float64.of_int 0) s) dt) = 0%Qc.
Proof.
  unfold value64. destruct (zero_step s dt) as [H|H].
  - rewrite H. apply Qc_is_canon. reflexivity.
  - destruct (FloatOps.Prim2SF _); try discriminate.
    apply Qc_is_canon. reflexivity.
Qed.


Example value64_of_speed : value64 speed64 = of_int 300.
Proof. apply Qc_is_canon. vm_compute. reflexivity. Qed.

Example value64_of_17_ms :
  value64 (Float64.seconds 17) =
  Q2Qc (1224979098644775 # 72057594037927936).
Proof. apply Qc_is_canon. vm_compute. reflexivity. Qed.



(** The displacement of the witness is not zero: 5.1000000000000005 to
    the left. *)
Example delta64_left_17_ms :
  delta64 speed64 (Float64.seconds 17) (holding [K_LEFT]) =
  (Q2Qc (- (5742089524897383 # 1125899906842624)), 0%Qc).
Proof.
  unfold delta64, value64_2, step64, vsum, vadd.
  cbn -[Float64.of_int PrimFloat.add PrimFloat.mul value64 Float64.seconds
        speed64].
  rewrite value64_zero_step, of_int_0.
  f_equal; apply Qc_is_canon; vm_compute; reflexivity.
Qed.

(** ** App: the event loop and the main loop *)

Lemma handle_fold (held : Keys) (events : list Event) (s : App.t) :
  let s' := fold_left (App.handle held) events s in
  App.done s' = App.done s || existsb is_quit events /\
  App.fps s' = App.fps s /\
  App.screen_rect s' = App.screen_rect s /\
  App.player s' = App.player s.
Proof.
  revert s. induction events as [|e events IH]; intros s; cbn.
  - now rewrite orb_false_r.
  - destruct (IH (App.handle held s e)) as (Hd & Hf & Hr & Hp).
    rewrite Hd, Hf, Hr, Hp.
    destruct e; cbn; repeat split;
      now rewrite ?orb_true_r, ?orb_false_r.
Qed.

Lemma event_loop_done (f : Frame) (w : App.World) :
  App.done (App.self (App.event_loop f w)) = App.done (App.self w) || quits f.
Proof. apply handle_fold. Qed.

Lemma body_facts (f : Frame) (dt : Qc) (w : App.World) :
  fst (App.body f dt w) = App.seconds (ticked f) /\
  App.log (snd (App.body f dt w)) =
    App.log w ++ [Polled (polled f); Updated dt; Rendered;
                  Ticked (App.fps (App.self w)) (ticked f)] /\
  App.done (App.self (snd (App.body f dt w))) =
    App.done (App.self w) || quits f /\
  App.fps (App.self (snd (App.body f dt w))) = App.fps (App.self w).
Proof.
  destruct (handle_fold (pressed f) (polled f) (App.self w))
    as (Hd & Hf & _ & _).
  unfold App.body, App.tick, App.render, App.update, App.event_loop, App.say;
    cbn.
  rewrite Hd, Hf, <- !app_assoc. cbn. repeat split.
Qed.

Lemma while_done (frames : list Frame) (dt : Qc) (w : App.World) :
  App.done (App.self w) = true ->
  App.while_not_done frames dt w = App.Returned w.
Proof. intros H. destruct frames; cbn; now rewrite H. Qed.

Lemma while_step (f : Frame) (frames : list Frame) (dt : Qc) (w : App.World) :
  App.done (App.self w) = false ->
  App.while_not_done (f :: frames) dt w =
  App.while_not_done frames (fst (App.body f dt w)) (snd (App.body f dt w)).
Proof.
  intros H. cbn [App.while_not_done]. rewrite H.
  now destruct (App.body f dt w).
Qed.

Lemma while_no_quit (pre rest : list Frame) :
  Forall (fun g => quits g = false) pre ->
  forall (dt : Qc) (w : App.World),
  App.done (App.self w) = false ->
  exists w',
    App.while_not_done (pre ++ rest) dt w =
      App.while_not_done rest (dt_after dt pre) w' /\
    App.done (App.self w') = false /\
    App.fps (App.self w') = App.fps (App.self w) /\
    App.log w' = App.log w ++ passes (App.fps (App.self w)) dt pre.
Proof.
  induction 1 as [|f pre Hf _ IH]; intros dt w Hw.
  - exists w. cbn. now rewrite app_nil_r.
  - destruct (body_facts f dt w) as (Bdt & Blog & Bdone & Bfps).
    rewrite Hw, Hf in Bdone. cbn in Bdone.
    destruct (IH (fst (App.body f dt w)) (snd (App.body f dt w)) Bdone)
      as (w' & Hrun & Hd & Hfps & Hlog).
    exists w'. cbn [app]. rewrite (while_step f _ dt w Hw), Hrun.
    rewrite Hfps, Hlog, Blog, Bfps, Bdt, <- app_assoc. cbn. repeat split.
    assumption.
Qed.

(** C7, as stated, fails in its clause that the loop body never executes
    once the quit flag is set: [done] is only tested at the head of the
    loop.  In a pass that polls KEYDOWN and QUIT with left held,
    [event_loop] sets [done], and the same pass goes on to update (the
    player moves 6 pixels in 20 ms), render (the sprite is drawn at the new
    rectangle) and tick. *)
Lemma quit_pass_still_updates_and_renders :
  let w0 := {| App.self := App.init (Surface.set_mode SCREEN_SIZE) no_keys;
               App.log := [] |} in
  let w1 := App.event_loop last_frame w0 in
  let w2 := App.update (App.seconds 20) w1 in
  let w3 := App.render w2 in
  App.done (App.self w1) = true /\
  snd (App.body last_frame (App.seconds 20) w0) =
    snd (App.tick (ticked last_frame) w3) /\
  App.log (snd (App.body last_frame (App.seconds 20) w0)) =
    [Polled [KEYDOWN; QUIT]; Updated (App.seconds 20); Rendered;
     Ticked 60 16] /\
  Player.rect (App.player (App.self w0)) = Rect.mk 200 200 100 100 /\
  Player.rect (App.player (App.self w2)) = Rect.mk 194 200 100 100 /\
  Surface.drawn (App.screen (App.self w3)) =
    [Surface.Filled BACKGROUND_COLOR;
     Surface.Blitted Player.make_image (Rect.mk 194 200 100 100)].
Proof.
  cbv zeta. repeat split; vm_compute; reflexivity.
Qed.

(** C7, amended.  Started with [done] unset, the main loop keeps running as
    long as no QUIT event has been polled, and returns at the end of the
    pass that polls one: no further pass starts, whatever input follows,
    while that pass itself still updates, renders and ticks.  Each pass
    polls the events, updates with the milliseconds of the previous pass'
    tick divided by 1000 (zero for the first), renders and ticks, in this
    order; and [event_loop] sets [done] exactly when a QUIT event is among
    the polled events. *)
Theorem main_loop_runs_until_quit
    (s : App.t) (first_tick : Z) (pre : list Frame) (f : Frame)
    (post : list Frame) :
  App.done s = false ->
  Forall (fun g => quits g = false) pre ->
  quits f = true ->
  (exists w,
     App.main_loop first_tick pre s =
       App.Running (dt_after (of_int 0) pre) w /\
     App.done (App.self w) = false /\
     App.log w =
       Ticked (App.fps s) first_tick :: passes (App.fps s) (of_int 0) pre) /\
  (exists w,
     App.main_loop first_tick (pre ++ f :: post) s = App.Returned w /\
     App.done (App.self w) = true /\
     App.log w =
       Ticked (App.fps s) first_tick
         :: passes (App.fps s) (of_int 0) (pre ++ [f]) /\
     forall (more : list Frame) (dt : Qc),
       App.while_not_done more dt w = App.Returned w) /\
  (forall (g : Frame) (w : App.World),
     App.done (App.self (App.event_loop g w)) =
     App.done (App.self w) || quits g).
Proof.
  intros Hs Hpre Hf.
  set (w0 := {| App.self := s;
                App.log := [Ticked (App.fps s) first_tick] |}).
  assert (Hmain : forall frames,
            App.main_loop first_tick frames s =
            App.while_not_done frames (of_int 0) w0) by reflexivity.
  split; [|split].
  - destruct (while_no_quit pre [] Hpre (of_int 0) w0 Hs)
      as (w & Hrun & Hd & _ & Hlog).
    exists w. rewrite Hmain. rewrite app_nil_r in Hrun. rewrite Hrun.
    cbn [App.while_not_done]. rewrite Hd. now repeat split.
  - destruct (while_no_quit pre (f :: post) Hpre (of_int 0) w0 Hs)
      as (w & Hrun & Hd & Hfps & Hlog).
    destruct (body_facts f (dt_after (of_int 0) pre) w)
      as (Bdt & Blog & Bdone & _).
    rewrite Hd, Hf in Bdone. cbn [orb] in Bdone.
    exists (snd (App.body f (dt_after (of_int 0) pre) w)).
    rewrite Hmain, Hrun, (while_step f post _ w Hd).
    rewrite (while_done _ _ _ Bdone).
    split; [reflexivity|]. split; [exact Bdone|]. split.
    + rewrite Blog, Hlog, Hfps. cbn [App.self App.log w0 app].
      f_equal. clear.
      generalize (of_int 0). induction pre as [|g pre IH]; intros dt.
      * reflexivity.
      * cbn. do 4 f_equal. apply IH.
    + intros more dt. now apply while_done.
  - apply event_loop_done.
Qed.

Lemma main_loop_runs_until_quit_witness :
  App.done (App.init (Surface.set_mode SCREEN_SIZE) no_keys) = false /\
  Forall (fun g => quits g = false) [idle_frame; key_frame] /\
  quits quit_frame = true /\
  exists w,
    main no_keys 16 ([idle_frame; key_frame] ++ quit_frame :: [key_frame]) =
      App.Returned w /\
    App.done (App.self w) = true /\
    App.log w =
      Ticked 60 16 ::
        passes 60 (of_int 0) ([idle_frame; key_frame] ++ [quit_frame]) /\
    forall (more : list Frame) (dt : Qc),
      App.while_not_done more dt w = App.Returned w.
Proof.
  assert (Hs : App.done (App.init (Surface.set_mode SCREEN_SIZE) no_keys)
               = false) by reflexivity.
  assert (Hpre : Forall (fun g => quits g = false) [idle_frame; key_frame])
    by (repeat constructor).
  assert (Hq : quits quit_frame = true) by reflexivity.
  split; [exact Hs|]. split; [exact Hpre|]. split; [exact Hq|].
  exact (proj1 (proj2
    (main_loop_runs_until_quit
       (App.init (Surface.set_mode SCREEN_SIZE) no_keys) 16
       [idle_frame; key_frame] quit_frame [key_frame] Hs Hpre Hq))).
Defined.

Lemma quot2_bounds (n : Z) : 0 <= n -> 2 * Z.quot n 2 <= n < 2 * Z.quot n 2 + 2.
Proof.
  intros Hn. pose proof (Z.quot_rem' n 2) as E.
  pose proof (Z.rem_bound_pos n 2 Hn ltac:(lia)). lia.
Qed.

Lemma centred_clamp_axis (c len : Z) :
  c = Z.quot len 2 - 50 -> Rect.clamp_axis c 100 0 len = c.
Proof.
  intros ->. unfold Rect.clamp_axis.
  destruct (len <=? 100) eqn:E1; [reflexivity|]. apply Z.leb_gt in E1.
  pose proof (quot2_bounds len ltac:(lia)) as B.
  destruct (Z.quot len 2 - 50 <? 0) eqn:E2; [apply Z.ltb_lt in E2; lia|].
  destruct (0 + len <? Z.quot len 2 - 50 + 100) eqn:E3;
    [apply Z.ltb_lt in E3; lia|].
  reflexivity.
Qed.

Lemma centred_player_stays (display : Surface.t) (keys : Keys) (v : Qc) :
  let screen_rect := Surface.get_rect display in
  Player.update (Player.init (Rect.center screen_rect) v) keys screen_rect
    (of_int 0) =
  Player.init (Rect.center screen_rect) v.
Proof.
  intros screen_rect. set (p := Player.init (Rect.center screen_rect) v).
  unfold Player.update. rewrite of_int_0, integrate_zero_dt.
  rewrite (place_synced p (proj2 (init_invariant _ _))).
  destruct (Rect.contains screen_rect (Player.rect p)) eqn:E.
  - now apply clamp_inside.
  - rewrite (clamp_outside p screen_rect E).
    assert (R : Rect.clamp_ip (Player.rect p) screen_rect = Player.rect p).
    { unfold Rect.clamp_ip, p, screen_rect; cbn.
      now rewrite !centred_clamp_axis by reflexivity. }
    rewrite R. reflexivity.
Qed.

(** C6.  The first pass of the main loop calls [update] with [dt = 0]
    exactly, and a freshly built App's player is the same after that pass
    as before it, whatever events are polled and whatever keys are held. *)
Theorem first_pass_has_zero_dt
    (display : Surface.t) (held : Keys) (first_tick : Z) (f : Frame)
    (rest : list Frame) :
  let s := App.init display held in
  let w0 := snd (App.tick first_tick {| App.self := s; App.log := [] |}) in
  let w1 := snd (App.body f (of_int 0) w0) in
  App.main_loop first_tick (f :: rest) s =
    App.while_not_done rest (App.seconds (ticked f)) w1 /\
  App.log w1 =
    [Ticked 60 first_tick; Polled (polled f); Updated 0%Qc; Rendered;
     Ticked 60 (ticked f)] /\
  App.player (App.self w1) = App.player s.
Proof.
  intros s w0 w1.
  destruct (body_facts f (of_int 0) w0) as (Bdt & Blog & _ & _).
  split; [|split].
  - change (App.main_loop first_tick (f :: rest) s)
      with (App.while_not_done (f :: rest) (of_int 0) w0).
    rewrite (while_step f rest (of_int 0) w0 eq_refl). fold w1.
    now rewrite Bdt.
  - unfold w1. rewrite Blog, of_int_0. reflexivity.
  - destruct (handle_fold (pressed f) (polled f) s) as (_ & _ & Hr & Hp).
    unfold w1, App.body, App.tick, App.render, App.update, App.event_loop,
      App.say; cbn.
    rewrite Hr, Hp. apply centred_player_stays.
Qed.

(** * Further properties of the code *)

(** ** Player: construction and the class invariant *)



(** ** Player: keys, clamping twice, updating twice *)

(** X5.  Only the four arrow keys matter: two key states that agree on
    them give the same update, whatever other keys are held. *)
Theorem update_ignores_other_keys
    (p : Player.t) (keys keys' : Keys) (screen_rect : Rect.t) (dt : Qc) :
  same_arrows keys keys' ->
  Player.update p keys screen_rect dt = Player.update p keys' screen_rect dt.
Proof.
  intros H. unfold Player.update, Player.integrate; cbn.
  unfold Player.move.
  rewrite (H K_LEFT), (H K_RIGHT), (H K_UP), (H K_DOWN);
    cbn; auto 6.
Qed.

Lemma update_ignores_other_keys_witness :
  same_arrows (holding [K_UP; K_OTHER 32]) (holding [K_UP]) /\
  Player.update centred_player (holding [K_UP; K_OTHER 32]) screen_500
    sixtieth =
  Player.update centred_player (holding [K_UP]) screen_500 sixtieth.
Proof.
  assert (H : same_arrows (holding [K_UP; K_OTHER 32]) (holding [K_UP])).
  { intros k [<-|[<-|[<-|[<-|[]]]]]; reflexivity. }
  split; [exact H|].
  exact (update_ignores_other_keys centred_player _ _ screen_500 sixtieth H).
Defined.

Lemma clamp_axis_twice (pos len apos alen : Z) :
  Rect.clamp_axis (Rect.clamp_axis pos len apos alen) len apos alen =
  Rect.clamp_axis pos len apos alen.
Proof.
  unfold Rect.clamp_axis.
  destruct (alen <=? len) eqn:E1; [reflexivity|]. apply Z.leb_gt in E1.
  destruct (pos <? apos) eqn:E2.
  - rewrite Z.ltb_irrefl.
    destruct (apos + alen <? apos + len) eqn:E3;
      [apply Z.ltb_lt in E3; lia | reflexivity].
  - destruct (apos + alen <? pos + len) eqn:E3.
    + apply Z.ltb_ge in E2. apply Z.ltb_lt in E3.
      destruct (apos + alen - len <? apos) eqn:E4;
        [apply Z.ltb_lt in E4; lia|].
      destruct (apos + alen <? apos + alen - len + len) eqn:E5;
        [apply Z.ltb_lt in E5; lia | reflexivity].
    + now rewrite E2, E3.
Qed.

Lemma clamp_ip_twice (r s : Rect.t) :
  Rect.clamp_ip (Rect.clamp_ip r s) s = Rect.clamp_ip r s.
Proof.
  unfold Rect.clamp_ip; cbn. now rewrite !clamp_axis_twice.
Qed.

Lemma clamp_clamp (p : Player.t) (screen_rect : Rect.t) :
  Player.clamp (Player.clamp p screen_rect) screen_rect =
  Player.clamp p screen_rect.
Proof.
  destruct (Rect.contains screen_rect (Player.rect p)) eqn:E.
  - now rewrite !(clamp_inside p screen_rect E).
  - rewrite (clamp_outside p screen_rect E).
    set (q := Player.mk _ _ _ _).
    destruct (Rect.contains screen_rect (Player.rect q)) eqn:E'.
    + now apply clamp_inside.
    + rewrite (clamp_outside q screen_rect E'). unfold q; cbn.
      now rewrite clamp_ip_twice.
Qed.

(** X6.  [clamp] is idempotent: clamping a clamped player again, to the
    same screen, changes nothing, whatever the sizes of sprite and
    screen. *)
Theorem clamp_twice_is_clamp_once (p : Player.t) (screen_rect : Rect.t) :
  Player.clamp (Player.clamp p screen_rect) screen_rect =
  Player.clamp p screen_rect.
Proof. apply clamp_clamp. Qed.

(** X7.  Right after any update, an update with elapsed time zero changes
    nothing, whatever keys are held then: the state an update leaves is
    already placed and clamped. *)
Theorem update_then_zero_dt_update
    (p : Player.t) (keys keys' : Keys) (screen_rect : Rect.t) (dt : Qc) :
  Player.update (Player.update p keys screen_rect dt) keys' screen_rect 0%Qc =
  Player.update p keys screen_rect dt.
Proof.
  set (q := Player.place (Player.integrate p keys dt)).
  assert (Hq : synced q) by (apply center_set_center).
  assert (Hc : synced (Player.clamp q screen_rect)).
  { destruct (Rect.contains screen_rect (Player.rect q)) eqn:E.
    - now rewrite clamp_inside.
    - rewrite clamp_outside by assumption.
      unfold synced; cbn [Player.rect Player.true_pos].
      now rewrite to_int2_of_int2. }
  change (Player.update p keys screen_rect dt) with (Player.clamp q screen_rect).
  unfold Player.update at 1.
  rewrite integrate_zero_dt, (place_synced _ Hc).
  apply clamp_clamp.
Qed.

(** ** App: what a pass of the main loop does *)

Lemma handle_fold_keys (held : Keys) (events : list Event) (s : App.t) :
  let s' := fold_left (App.handle held) events s in
  App.keys s' = (if existsb is_key_event events then held else App.keys s) /\
  App.screen s' = App.screen s.
Proof.
  revert s. induction events as [|e events IH]; intros s; cbn.
  - now split.
  - destruct (IH (App.handle held s e)) as (Hk & Hs).
    rewrite Hk, Hs.
    destruct e; cbn; split; try reflexivity;
      now destruct (existsb is_key_event events).
Qed.

(** X8.  [event_loop] replaces the stored key state by the state the
    keyboard reports exactly when a KEYDOWN or KEYUP event was polled, and
    keeps it otherwise; it touches neither the player nor the screen, and a
    QUIT event does not stop the later events of the same poll from being
    handled. *)
Theorem event_loop_refreshes_keys (f : Frame) (w : App.World) :
  App.keys (App.self (App.event_loop f w)) =
    (if existsb is_key_event (polled f) then pressed f
     else App.keys (App.self w)) /\
  App.player (App.self (App.event_loop f w)) = App.player (App.self w) /\
  App.screen (App.self (App.event_loop f w)) = App.screen (App.self w) /\
  App.screen_rect (App.self (App.event_loop f w)) =
    App.screen_rect (App.self w).
Proof.
  destruct (handle_fold (pressed f) (polled f) (App.self w))
    as (_ & _ & Hr & Hp).
  destruct (handle_fold_keys (pressed f) (polled f) (App.self w))
    as (Hk & Hs).
  unfold App.event_loop, App.say; cbn [App.self].
  now rewrite Hk, Hp, Hs, Hr.
Qed.

(** A QUIT event polled before a key event: the keys are still refreshed. *)
Example keys_refreshed_after_quit :
  let w := {| App.self := App.init (Surface.set_mode SCREEN_SIZE) no_keys;
              App.log := [] |} in
  let f := {| polled := [QUIT; KEYDOWN]; pressed := holding [K_UP];
              ticked := 16 |} in
  App.done (App.self (App.event_loop f w)) = true /\
  App.keys (App.self (App.event_loop f w)) K_UP = true.
Proof. split; reflexivity. Qed.

Lemma body_state (f : Frame) (dt : Qc) (w : App.World) :
  let s := App.self (App.event_loop f w) in
  let p := Player.update (App.player (App.self w)) (App.keys s)
             (App.screen_rect (App.self w)) dt in
  App.player (App.self (snd (App.body f dt w))) = p /\
  App.screen (App.self (snd (App.body f dt w))) =
    Surface.mk (Surface.size (App.screen (App.self w)))
      [Surface.Filled BACKGROUND_COLOR;
       Surface.Blitted (Player.image p) (Player.rect p)] /\
  App.screen_rect (App.self (snd (App.body f dt w))) =
    App.screen_rect (App.self w) /\
  App.keys (App.self (snd (App.body f dt w))) = App.keys s.
Proof.
  destruct (handle_fold (pressed f) (polled f) (App.self w))
    as (_ & _ & Hr & Hp).
  destruct (handle_fold_keys (pressed f) (polled f) (App.self w))
    as (_ & Hs).
  unfold App.body, App.tick, App.render, App.update, App.event_loop, App.say;
    cbn.
  rewrite Hp, Hs, Hr. repeat split.
Qed.

(** X9.  After every pass of the loop body the screen shows exactly the
    background fill and one copy of the sprite, at the rectangle the
    player has after this pass' update; nothing of earlier frames is
    left, and the screen keeps its size. *)
Theorem pass_draws_background_and_sprite
    (f : Frame) (dt : Qc) (w : App.World) :
  let w' := snd (App.body f dt w) in
  Surface.drawn (App.screen (App.self w')) =
    [Surface.Filled BACKGROUND_COLOR;
     Surface.Blitted (Player.image (App.player (App.self w')))
                     (Player.rect (App.player (App.self w')))] /\
  Surface.size (App.screen (App.self w')) =
    Surface.size (App.screen (App.self w)) /\
  App.player (App.self w') =
    Player.update (App.player (App.self w))
      (App.keys (App.self (App.event_loop f w)))
      (App.screen_rect (App.self w)) dt.
Proof.
  destruct (body_state f dt w) as (Hp & Hs & _ & _).
  cbv zeta. rewrite Hs, Hp. repeat split.
Qed.

Lemma init_player_contained (display : Surface.t) (v : Qc) :
  roomy (Surface.get_rect display) ->
  Rect.contains (Surface.get_rect display)
    (Player.rect (Player.init (Rect.center (Surface.get_rect display)) v))
  = true.
Proof.
  intros [Fw Fh]. apply contains_spec. cbn in *.
  pose proof (quot2_bounds (fst (Surface.size display)) ltac:(lia)).
  pose proof (quot2_bounds (snd (Surface.size display)) ltac:(lia)).
  lia.
Qed.

Lemma update_contained
    (p : Player.t) (keys : Keys) (screen_rect : Rect.t) (dt : Qc) :
  sized p -> roomy screen_rect ->
  Rect.contains screen_rect
    (Player.rect (Player.update p keys screen_rect dt)) = true.
Proof.
  intros [Hw Hh] [Fw Fh]. unfold Player.update.
  set (q := Player.place (Player.integrate p keys dt)).
  assert (Hqw : Rect.w (Player.rect q) = fst Player.SIZE) by exact Hw.
  assert (Hqh : Rect.h (Player.rect q) = snd Player.SIZE) by exact Hh.
  destruct (Rect.contains screen_rect (Player.rect q)) eqn:E.
  - now rewrite (clamp_inside q screen_rect E).
  - rewrite (clamp_outside q screen_rect E); cbn [Player.rect].
    apply clamp_ip_contained; rewrite ?Hqw, ?Hqh; cbn in *; lia.
Qed.

Lemma while_keeps_sprite_inside (d : Rect.t) (frames : list Frame) :
  roomy d ->
  forall (dt : Qc) (w : App.World),
  App.screen_rect (App.self w) = d ->
  Player.reachable (App.player (App.self w)) ->
  Rect.contains d (Player.rect (App.player (App.self w))) = true ->
  Player.speed (App.player (App.self w)) = of_int 300 ->
  let w' := world_of (App.while_not_done frames dt w) in
  App.screen_rect (App.self w') = d /\
  Player.reachable (App.player (App.self w')) /\
  Rect.contains d (Player.rect (App.player (App.self w'))) = true /\
  Player.speed (App.player (App.self w')) = of_int 300.
Proof.
  intros Hroom. induction frames as [|f frames IH]; intros dt w Hd Hr Hin Hv.
  - cbn. destruct (App.done (App.self w)); cbn; now repeat split.
  - destruct (App.done (App.self w)) eqn:E.
    + rewrite (while_done _ _ _ E). cbn. now repeat split.
    + rewrite (while_step f frames dt w E).
      destruct (body_state f dt w) as (Hp & _ & Hs & _). cbv zeta in Hp.
      apply IH.
      * now rewrite Hs.
      * rewrite Hp. now apply Player.reach_update.
      * rewrite Hp, Hd.
        apply update_contained; [apply reachable_invariant, Hr | exact Hroom].
      * rewrite Hp. unfold Player.update, Player.clamp.
        now destruct (negb _).
Qed.

(** X10.  The sprite never leaves the screen: on a display at least as
    large as the sprite, however many frames the program has run and
    whatever was polled and pressed, the player's rectangle lies within the
    screen rectangle, the player is in a state of its class invariant, and
    screen rectangle and speed are those of the start. *)
Theorem sprite_never_leaves_screen
    (display : Surface.t) (held : Keys) (first_tick : Z)
    (frames : list Frame) :
  roomy (Surface.get_rect display) ->
  App.screen_rect
    (App.self
       (world_of (App.main_loop first_tick frames (App.init display held)))) =
    Surface.get_rect display /\
  Player.reachable
    (App.player
       (App.self
          (world_of
             (App.main_loop first_tick frames (App.init display held))))) /\
  Rect.contains (Surface.get_rect display)
    (Player.rect
       (App.player
          (App.self
             (world_of
                (App.main_loop first_tick frames (App.init display held))))))
  = true /\
  Player.speed
    (App.player
       (App.self
          (world_of
             (App.main_loop first_tick frames (App.init display held))))) =
    of_int 300.
Proof.
  intros Hroom.
  apply (while_keeps_sprite_inside (Surface.get_rect display) frames Hroom).
  - reflexivity.
  - apply Player.reach_init.
  - now apply init_player_contained.
  - reflexivity.
Qed.

Lemma sprite_never_leaves_screen_witness :
  roomy (Surface.get_rect (Surface.set_mode SCREEN_SIZE)) /\
  Rect.contains (Surface.get_rect (Surface.set_mode SCREEN_SIZE))
    (Player.rect
       (App.player
          (App.self
             (world_of
                (App.main_loop 16 [key_frame; key_frame; quit_frame]
                   (App.init (Surface.set_mode SCREEN_SIZE) no_keys))))))
  = true.
Proof.
  assert (H : roomy (Surface.get_rect (Surface.set_mode SCREEN_SIZE)))
    by (split; cbn; lia).
  split; [exact H|].
  exact (proj1 (proj2 (proj2
    (sprite_never_leaves_screen (Surface.set_mode SCREEN_SIZE) no_keys 16
       [key_frame; key_frame; quit_frame] H)))).
Defined.

(** ** App: the elapsed times handed to update *)

Lemma seconds_nonneg (ms : Z) : 0 <= ms -> (0 <= App.seconds ms)%Qc.
Proof.
  intros H. unfold App.seconds, Qcle, Qcdiv, Qcmult, Qcinv, of_int, Q2Qc;
    cbn [this].
  rewrite !Qred_correct. unfold Qle; cbn. lia.
Qed.

Lemma update_dts_app (l l' : list Action) :
  update_dts (l ++ l') = update_dts l ++ update_dts l'.
Proof.
  induction l as [|a l IH]; [reflexivity|].
  destruct a; cbn; now rewrite IH.
Qed.

Lemma while_dts_nonneg (frames : list Frame) :
  Forall (fun f => 0 <= ticked f) frames ->
  forall (dt : Qc) (w : App.World),
  (0 <= dt)%Qc ->
  Forall (fun d => (0 <= d)%Qc) (update_dts (App.log w)) ->
  Forall (fun d => (0 <= d)%Qc)
    (update_dts (App.log (world_of (App.while_not_done frames dt w)))).
Proof.
  induction 1 as [|f frames Hf _ IH]; intros dt w Hdt Hlog.
  - cbn. now destruct (App.done (App.self w)).
  - destruct (App.done (App.self w)) eqn:E.
    + now rewrite (while_done _ _ _ E).
    + rewrite (while_step f frames dt w E).
      destruct (body_facts f dt w) as (Bdt & Blog & _ & _).
      apply IH.
      * rewrite Bdt. now apply seconds_nonneg.
      * rewrite Blog, update_dts_app. apply Forall_app. split; [exact Hlog|].
        cbn. now constructor.
Qed.

(** X11.  [update] is never called with a negative elapsed time: if the
    clock never reports a negative number of milliseconds, every [dt]
    handed to [update] during a run of the main loop is at least zero. *)
Theorem update_never_gets_negative_dt
    (s : App.t) (first_tick : Z) (frames : list Frame) :
  Forall (fun f => 0 <= ticked f) frames ->
  Forall (fun d => (0 <= d)%Qc)
    (update_dts
       (App.log (world_of (App.main_loop first_tick frames s)))).
Proof.
  intros H. apply (while_dts_nonneg frames H).
  - apply Qle_bool_imp_le. reflexivity.
  - cbn. constructor.
Qed.

Lemma update_never_gets_negative_dt_witness :
  Forall (fun f => 0 <= ticked f) [idle_frame; key_frame; quit_frame] /\
  Forall (fun d => (0 <= d)%Qc)
    (update_dts
       (App.log
          (world_of
             (App.main_loop 16 [idle_frame; key_frame; quit_frame]
                (App.init (Surface.set_mode SCREEN_SIZE) no_keys))))).
Proof.
  assert (H : Forall (fun f => 0 <= ticked f)
                [idle_frame; key_frame; quit_frame])
    by (repeat constructor; cbn; lia).
  split; [exact H|].
  exact (update_never_gets_negative_dt
           (App.init (Surface.set_mode SCREEN_SIZE) no_keys) 16
           [idle_frame; key_frame; quit_frame] H).
Defined.

(** ** Exact position and rectangle stay within a pixel *)

Lemma to_int_within_one (q : Qc) :
  (inject_Z (to_int q) - 1 < q)%Q /\ (q < inject_Z (to_int q) + 1)%Q.
Proof.
  unfold to_int. destruct (Qle_bool 0 q) eqn:E.
  - pose proof (Qfloor_le q) as L. pose proof (Qlt_floor q) as U.
    rewrite inject_Z_plus in U. split; [|exact U].
    apply Qlt_le_trans with (inject_Z (Qfloor q)); [|exact L].
    rewrite <- (Qplus_0_r (inject_Z (Qfloor q))) at 2.
    apply Qplus_lt_r. reflexivity.
  - pose proof (Qle_ceiling q) as U. pose proof (Qceiling_lt q) as L.
    unfold Z.sub in L. rewrite inject_Z_plus in L. split; [exact L|].
    apply Qle_lt_trans with (inject_Z (Qceiling q)); [exact U|].
    rewrite <- (Qplus_0_r (inject_Z (Qceiling q))) at 1.
    apply Qplus_lt_r. reflexivity.
Qed.

(** X12.  In every state a Player goes through, the exact position is
    less than one pixel away from the centre of the rectangle, along each
    axis. *)
Theorem true_pos_within_a_pixel_of_rect (p : Player.t) :
  Player.reachable p ->
  (inject_Z (fst (Rect.center (Player.rect p))) - 1 < fst (Player.true_pos p)
   /\ fst (Player.true_pos p) < inject_Z (fst (Rect.center (Player.rect p))) + 1
   /\ inject_Z (snd (Rect.center (Player.rect p))) - 1 < snd (Player.true_pos p)
   /\ snd (Player.true_pos p) <
        inject_Z (snd (Rect.center (Player.rect p))) + 1)%Q.
Proof.
  intros H. destruct (reachable_invariant p H) as [_ Hy].
  unfold synced in Hy. rewrite Hy. unfold to_int2; cbn [fst snd].
  destruct (to_int_within_one (fst (Player.true_pos p))).
  destruct (to_int_within_one (snd (Player.true_pos p))).
  now repeat split.
Qed.

Lemma true_pos_within_a_pixel_of_rect_witness :
  Player.reachable
    (Player.update centred_player (holding [K_UP]) screen_500
       (Q2Qc (1 # 1000))) /\
  (inject_Z
     (snd (Rect.center
             (Player.rect
                (Player.update centred_player (holding [K_UP]) screen_500
                   (Q2Qc (1 # 1000)))))) - 1 <
   snd (Player.true_pos
          (Player.update centred_player (holding [K_UP]) screen_500
             (Q2Qc (1 # 1000)))))%Q.
Proof.
  assert (Hr : Player.reachable
                 (Player.update centred_player (holding [K_UP]) screen_500
                    (Q2Qc (1 # 1000))))
    by (apply Player.reach_update, Player.reach_init).
  split; [exact Hr|].
  exact (proj1 (proj2 (proj2 (true_pos_within_a_pixel_of_rect _ Hr)))).
Defined.